(** * The supervisor watchdog: [supervisor-watcher.py]

    A shallow embedding of
    [telemetry-metrics/otel-collector/container/supervisor-watcher.py]
    and the properties of its event loop.

    The script is a supervisord event listener.  It reads event frames from
    standard input through [supervisor.childutils.listener], and when a
    watched process reaches the state FATAL or EXITED it sleeps ten seconds
    and runs [supervisorctl shutdown].

    Python's effects are made explicit:
    - exceptions are values of type [exn]; a computation returns [exn + A];
    - everything the process does that can be observed from outside (frames
      taken from stdin, replies written to stdout, log records, the sleep,
      the subprocess) is recorded, in order, in a list of [event]s;
    - standard input is the list of frames still to come;
    - the operating system's answer to the n-th [subprocess.call] is given by
      an oracle [nat -> call_outcome]. *)

From Stdlib Require Import Ascii.
From stdpp Require Import base numbers strings list gmap.

Local Open Scope string_scope.
Local Open Scope list_scope.

(** ** Python values used by the script *)

(** The exceptions that can be raised while [main] runs.  [SystemExit] is the
    only one that is not a subclass of [Exception]. *)
Inductive exn : Type :=
  | KeyError (key : string)
  | ValueError
  | OSError
  | SystemExit (code : Z).

Definition is_Exception (e : exn) : bool :=
  match e with
  | SystemExit _ => false
  | _ => true
  end.

(** What [listener.wait] returns: the header dictionary and the raw body. *)
Record frame : Type := Frame {
  headers : gmap string string;
  body : string
}.

(** The two acknowledgement tokens of the event-listener protocol,
    written by [listener.ok] and [listener.fail]. *)
Inductive token : Type := OK | FAIL.

(** The result of [subprocess.call]: the command ran and returned a status,
    or the child could not be spawned and [OSError] is raised. *)
Inductive call_outcome : Type :=
  | Returned (rc : Z)
  | SpawnFailed.

(** Observable actions, in the order the process performs them.
    [listener.wait] writes the READY token and blocks until a frame has
    arrived; the whole call is one action. *)
Inductive event : Type :=
  | Wait (f : frame)                         (* listener.wait returned f *)
  | Reply (t : token)                        (* listener.ok / listener.fail *)
  | Info (msg : string)                      (* logger.info *)
  | Critical (fmt : string) (e : exn)        (* logger.critical(fmt, str(e)) *)
  | Sleep (secs : Z)                         (* time.sleep *)
  | Call (argv : list string) (o : call_outcome). (* subprocess.call *)

(** ** The monad of the script: a trace, a call counter, exceptions *)

Record result (A : Type) : Type := Result {
  events : list event;        (* what was done, oldest first *)
  calls : nat;                (* subprocess calls made so far *)
  value : exn + A             (* raised exception or returned value *)
}.
Arguments Result {A} _ _ _.
Arguments events {A} _.
Arguments calls {A} _.
Arguments value {A} _.

(** A computation receives the number of subprocess calls made before it. *)
Definition M (A : Type) : Type := nat -> result A.

Definition after {A} (evs : list event) (r : result A) : result A :=
  Result (evs ++ events r) (calls r) (value r).

#[global] Instance M_ret : MRet M := fun A a n => Result [] n (inr a).

#[global] Instance M_bind : MBind M := fun A B k c n =>
  match c n with
  | Result evs n' (inl e) => Result evs n' (inl e)
  | Result evs n' (inr a) => after evs (k a n')
  end.

Definition raise {A} (e : exn) : M A := fun n => Result [] n (inl e).

Definition emit (ev : event) : M unit := fun n => Result [ev] n (inr tt).

(** [try: c  except Exception as e: handler(e)  else: orelse].
    An exception that is not an [Exception] passes through; exceptions of the
    handler and of the else block are not caught. *)
Definition try_except_else {A B} (c : M A) (handler : exn -> M B)
    (orelse : A -> M B) : M B := fun n =>
  match c n with
  | Result evs n' (inl e) =>
      if is_Exception e then after evs (handler e n')
      else Result evs n' (inl e)
  | Result evs n' (inr a) => after evs (orelse a n')
  end.

(** ** String and dictionary primitives *)

(** [s.split(sep)] for a one-character separator: every occurrence of the
    separator cuts, so the empty string gives one empty piece and two
    separators in a row give an empty piece between them. *)
Fixpoint split (sep : ascii) (s : string) : list string :=
  match s with
  | EmptyString => [EmptyString]
  | String c rest =>
      if Ascii.eqb c sep then EmptyString :: split sep rest
      else match split sep rest with
           | [] => [String c EmptyString]
           | piece :: pieces => String c piece :: pieces
           end
  end.

(** [dict(items)] for a list of lists, starting from the entries [d] already
    made: each item must have exactly two elements, a later key overwrites
    an earlier one, and an item of another length raises [ValueError]. *)
Fixpoint dict (d : gmap string string) (items : list (list string))
    : exn + gmap string string :=
  match items with
  | [] => inr d
  | [k; v] :: rest => dict (<[k := v]> d) rest
  | _ :: _ => inl ValueError
  end.

(** Line 21: [dict([pair.split(":") for pair in body.split(" ")])]. *)
Definition parse_body (body : string) : exn + gmap string string :=
  dict ∅ (map (split ":"%char) (split " "%char body)).

(** [d[k]]: the value, or [KeyError]. *)
Definition getitem (d : gmap string string) (k : string) : M string :=
  match d !! k with
  | Some v => mret v
  | None => raise (KeyError k)
  end.

Definition lift {A} (r : exn + A) : M A :=
  match r with
  | inl e => raise e
  | inr a => mret a
  end.

(** ** Library calls *)

Definition logger_info (msg : string) : M unit := emit (Info msg).
Definition logger_critical (fmt : string) (e : exn) : M unit :=
  emit (Critical fmt e).
Definition listener_ok : M unit := emit (Reply OK).
Definition listener_fail : M unit := emit (Reply FAIL).
Definition time_sleep (secs : Z) : M unit := emit (Sleep secs).
Definition exit {A} (code : Z) : M A := raise (SystemExit code).

(** The shutdown command of line 31. *)
Definition supervisorctl_shutdown : list string :=
  ["/usr/local/bin/supervisorctl"; "shutdown"].

(** The log messages of lines 18, 28, 30 and 34. *)
Definition msg_listening : string := "Listening for events...".
Definition msg_waiting : string :=
  "[WATCHER] Game not running or has exited. Waiting 10 seconds before shutting down supervisord...".
Definition msg_shutting_down : string :=
  "[WATCHER] Shutting down supervisord...".
Definition fmt_unexpected : string := "Unexpected Exception: %s".

Section Watcher.

(** [sys.argv[1:]], the process names to watch. *)
Variable args : list string.
(** Line 16, sampled by [main] before the loop. *)
Variable debug_mode : bool.
(** The outcome of the n-th [subprocess.call] of the process. *)
Variable spawn : nat -> call_outcome.

Definition subprocess_call (argv : list string) : M Z := fun n =>
  match spawn n with
  | Returned rc => Result [Call argv (Returned rc)] (S n) (inr rc)
  | SpawnFailed => Result [Call argv SpawnFailed] (S n) (inl OSError)
  end.

(** The condition of line 26.  [headers["eventname"]] is looked up again
    for the second comparison only when the first one is false. *)
Definition is_terminal_event (headers : gmap string string) : M bool :=
  e1 ← getitem headers "eventname";
  if String.eqb e1 "PROCESS_STATE_FATAL" then mret true
  else
    e2 ← getitem headers "eventname";
    mret (String.eqb e2 "PROCESS_STATE_EXITED").

(** The condition of line 27: [not args or body["processname"] in args].
    The body is consulted only when [args] is not empty. *)
Definition is_watched (body : gmap string string) : M bool :=
  if bool_decide (args = []) then mret true
  else
    p ← getitem body "processname";
    mret (bool_decide (p ∈ args)).

(** Lines 26 and 27 together: the inner condition is evaluated only when
    the outer one holds. *)
Definition decision (headers body : gmap string string) : M bool :=
  t ← is_terminal_event headers;
  if (t : bool) then is_watched body else mret false.

(** Lines 28 to 31. *)
Definition shutdown : M unit :=
  logger_info msg_waiting;;
  time_sleep 10;;
  logger_info msg_shutting_down;;
  _ ← subprocess_call supervisorctl_shutdown;
  mret tt.

(** The body of the [try] statement, lines 26 to 31. *)
Definition guarded (headers body : gmap string string) : M unit :=
  q ← decision headers body;
  if (q : bool) then shutdown else mret tt.

(** The [except] clause, lines 34 to 36. *)
Definition handler (e : exn) : M unit :=
  logger_critical fmt_unexpected e;;
  listener_fail;;
  exit 1.

(** One turn of the [while] loop for the frame [f] that [listener.wait]
    returned (lines 20 to 38). *)
Definition iteration (f : frame) : M unit :=
  emit (Wait f);;
  body ← lift (parse_body (body f));
  if debug_mode then mret tt (* continue *)
  else
    try_except_else (guarded (headers f) body)
      handler
      (fun _ => listener_ok).

(** The [while True] loop over the frames still to come on stdin.  When
    stdin is exhausted, [listener.wait] reads an empty header line, gets an
    empty header dictionary from it and raises [KeyError] on
    [headers['len']]; the call is outside the [try] statement.  The loop has
    no [break] and no [return], so it can only end with an exception. *)
Fixpoint loop (stdin : list frame) : M Empty_set :=
  match stdin with
  | [] => raise (KeyError "len")
  | f :: rest => iteration f;; loop rest
  end.

End Watcher.

(** Line 16: ['DEBUG' in os.environ]. *)
Definition debug_of (environ : gmap string string) : bool :=
  bool_decide (is_Some (environ !! "DEBUG")).

(** [main(sys.argv[1:])], run in a process whose environment is [environ],
    whose standard input delivers [stdin], and whose subprocess calls end as
    [spawn] says. *)
Definition main (args : list string) (environ : gmap string string)
    (spawn : nat -> call_outcome) (stdin : list frame) : result Empty_set :=
  (logger_info msg_listening;;
   loop args (debug_of environ) spawn stdin) 0%nat.

(** The exit status of the interpreter when [main] ends with the exception
    [e]: the code of a [SystemExit], and 1 for any other exception. *)
Definition exit_status (r : result Empty_set) : Z :=
  match value r with
  | inl (SystemExit code) => code
  | inl _ => 1
  | inr v => match v with end
  end.

(** The six ways one turn of the loop can go for the frame [f], entered
    with [n] subprocess calls made: what it leaves in the trace, the call
    count after it, and how it ends. *)
Inductive turn (f : frame) (n : nat) : result unit → Prop :=
  | turn_malformed :
      turn f n (Result [Wait f] n (inl ValueError))
  | turn_skipped :
      turn f n (Result [Wait f] n (inr tt))
  | turn_ignored :
      turn f n (Result [Wait f; Reply OK] n (inr tt))
  | turn_fault e :
      is_Exception e = true →
      turn f n (Result [Wait f; Critical fmt_unexpected e; Reply FAIL] n
                  (inl (SystemExit 1)))
  | turn_shutdown rc :
      turn f n (Result [Wait f; Info msg_waiting; Sleep 10;
                        Info msg_shutting_down;
                        Call supervisorctl_shutdown (Returned rc); Reply OK]
                  (S n) (inr tt))
  | turn_spawn_failed :
      turn f n (Result [Wait f; Info msg_waiting; Sleep 10;
                        Info msg_shutting_down;
                        Call supervisorctl_shutdown SpawnFailed;
                        Critical fmt_unexpected OSError; Reply FAIL]
                  (S n) (inl (SystemExit 1))).

(** A trace in which every subprocess call is the shutdown command and
    comes right after the ten-second sleep and the log record of line 30. *)
Definition graceful (tr : list event) : Prop :=
  ∀ pre argv o post,
    tr = pre ++ Call argv o :: post →
    argv = supervisorctl_shutdown ∧
    ∃ pre', pre = pre' ++ [Sleep 10; Info msg_shutting_down].

Definition is_call (ev : event) : bool :=
  match ev with
  | Call _ _ => true
  | _ => false
  end.

(** ** Sample inputs *)

(** A subprocess oracle that answers the same way every time. *)
Definition always (o : call_outcome) : nat → call_outcome := λ _, o.

(** The process [game] has exited; the body is the one supervisord sends. *)
Definition game_exited : frame :=
  Frame {["eventname" := "PROCESS_STATE_EXITED"]}
    "processname:game groupname:game from_state:RUNNING expected:0 pid:42".

(** A terminal event whose body has a token without a colon. *)
Definition bad_token : frame :=
  Frame {["eventname" := "PROCESS_STATE_EXITED"]} "badtoken".

(** A terminal event whose body parses but names no process. *)
Definition no_processname : frame :=
  Frame {["eventname" := "PROCESS_STATE_EXITED"]} "groupname:game".

(** An event that is not about a process; its body is empty. *)
Definition supervisor_running : frame :=
  Frame {["eventname" := "SUPERVISOR_STATE_CHANGE_RUNNING"]} "".

(** The process [sidecar] has exited. *)
Definition sidecar_exited : frame :=
  Frame {["eventname" := "PROCESS_STATE_EXITED"]} "processname:sidecar".

(** The process [game] is running. *)
Definition game_running : frame :=
  Frame {["eventname" := "PROCESS_STATE_RUNNING"]} "processname:game".

(** ** Reading a trace *)

(** The acknowledgement tokens written to stdout, oldest first. *)
Fixpoint replies (tr : list event) : list token :=
  match tr with
  | [] => []
  | Reply t :: tr => t :: replies tr
  | _ :: tr => replies tr
  end.

(** The frames taken from stdin, oldest first. *)
Fixpoint reads (tr : list event) : list frame :=
  match tr with
  | [] => []
  | Wait f :: tr => f :: reads tr
  | _ :: tr => reads tr
  end.

(** How many times [subprocess.call] was entered. *)
Fixpoint invocations (tr : list event) : nat :=
  match tr with
  | [] => 0
  | Call _ _ :: tr => S (invocations tr)
  | _ :: tr => invocations tr
  end.


(** [c in s] for a character [c]. *)
Fixpoint contains (c : ascii) (s : string) : bool :=
  match s with
  | EmptyString => false
  | String c' rest => Ascii.eqb c' c || contains c rest
  end.

(** A frame whose body the parser of line 21 accepts. *)
Definition well_formed (f : frame) : Prop :=
  ∃ d, parse_body (body f) = inr d.

(** A body is malformed when one of its space-separated tokens does not
    split into exactly two pieces at the colons. *)
Definition malformed (b : string) : Prop :=
  ∃ tok, tok ∈ split " " b ∧ length (split ":" tok) ≠ 2.

(** A frame that passes both conditions of lines 26 and 27. *)
Definition qualifying (args : list string) (f : frame) : Prop :=
  ∃ d, parse_body (body f) = inr d ∧
       value (decision args (headers f) d 0) = inr true.

(** ** The text format of a body *)

(** How many times the character [c] occurs in [s]. *)
Fixpoint count (c : ascii) (s : string) : nat :=
  match s with
  | EmptyString => 0
  | String c' rest => (if Ascii.eqb c' c then 1 else 0) + count c rest
  end.

(** [sep.join(pieces)], the inverse of [split] for a one-character
    separator. *)
Fixpoint join (sep : ascii) (pieces : list string) : string :=
  match pieces with
  | [] => EmptyString
  | p :: rest =>
      match rest with
      | [] => p
      | _ :: _ => String.append p (String sep (join sep rest))
      end
  end.

(** A body as supervisord writes it: the fields as [key:value], separated
    by single spaces.  It is the text that line 21 is written to read. *)
Definition render_field (kv : string * string) : string :=
  String.append kv.1 (String ":" kv.2).

Definition render_body (fields : list (string * string)) : string :=
  join " " (map render_field fields).

(** A field a body can carry: neither the key nor the value holds a space
    or a colon. *)
Definition plain_field (kv : string * string) : Prop :=
  contains " " kv.1 = false ∧ contains ":" kv.1 = false ∧
  contains " " kv.2 = false ∧ contains ":" kv.2 = false.

(** A frame that parses and fails one of the conditions of lines 26 and
    27. *)
Definition ignored (args : list string) (f : frame) : Prop :=
  ∃ d, parse_body (body f) = inr d ∧
       value (decision args (headers f) d 0) = inr false.

(** The trace with the return codes of the subprocess calls forgotten. *)
Definition erase_rc (ev : event) : event :=
  match ev with
  | Call argv (Returned _) => Call argv (Returned 0)
  | _ => ev
  end.

(** ** Equations of the monad and of the trace projections *)

Ltac unfold_M :=
  unfold mbind, M_bind, mret, M_ret, raise, emit, exit, lift, after,
    logger_info, logger_critical, listener_ok, listener_fail, time_sleep;
  simpl.

Lemma bind_run {A B} (c : M A) (k : A → M B) n :
  (c ≫= k) n =
    match value (c n) with
    | inl e => Result (events (c n)) (calls (c n)) (inl e)
    | inr a => after (events (c n)) (k a (calls (c n)))
    end.
Proof. unfold mbind, M_bind. by destruct (c n) as [? ? []]. Qed.

Lemma after_nil {A} (r : result A) : after [] r = r.
Proof. by destruct r. Qed.

Lemma after_after {A} (xs ys : list event) (r : result A) :
  after xs (after ys r) = after (xs ++ ys) r.
Proof. unfold after; simpl. by rewrite app_assoc. Qed.

Lemma replies_app (xs ys : list event) :
  replies (xs ++ ys) = replies xs ++ replies ys.
Proof.
  induction xs as [|[] xs IH]; simpl; [done|..]; by rewrite ?IH.
Qed.

Lemma reads_app (xs ys : list event) :
  reads (xs ++ ys) = reads xs ++ reads ys.
Proof.
  induction xs as [|[] xs IH]; simpl; [done|..]; by rewrite ?IH.
Qed.

Lemma invocations_app (xs ys : list event) :
  invocations (xs ++ ys) = (invocations xs + invocations ys)%nat.
Proof.
  induction xs as [|[] xs IH]; simpl; [done|..]; by rewrite ?IH.
Qed.


(** ** The parser of line 21 *)

Lemma dict_error d items e : dict d items = inl e → e = ValueError.
Proof.
  revert d. induction items as [|item items IH]; intros d; simpl; [done|].
  destruct item as [|k [|v [|]]]; try congruence. apply IH.
Qed.

Lemma dict_malformed d items :
  dict d items = inl ValueError ↔ ∃ item, item ∈ items ∧ length item ≠ 2.
Proof.
  revert d. induction items as [|item items IH]; intros d; simpl.
  - split; [done|]. intros (item & Hin & _). by apply elem_of_nil in Hin.
  - destruct item as [|k [|v [|w item]]]; simpl.
    + split; [|done]. intros _. exists []. split; [left|simpl; lia].
    + split; [|done]. intros _. exists [k]. split; [left|simpl; lia].
    + rewrite IH. split.
      * intros (item & Hin & Hlen). exists item. split; [by right|done].
      * intros (item & Hin & Hlen). apply elem_of_cons in Hin as [->|Hin].
        -- simpl in Hlen. lia.
        -- by exists item.
    + split; [|done]. intros _. exists (k :: v :: w :: item).
      split; [left|simpl; lia].
Qed.

Lemma parse_body_error b e : parse_body b = inl e → e = ValueError.
Proof. apply dict_error. Qed.

Lemma parse_body_malformed b : parse_body b = inl ValueError ↔ malformed b.
Proof.
  unfold parse_body, malformed. rewrite dict_malformed. split.
  - intros (item & Hin & Hlen). apply list_elem_of_fmap in Hin as (tok & -> & Hin).
    by exists tok.
  - intros (tok & Hin & Hlen). exists (split ":" tok). split; [|done].
    apply list_elem_of_fmap. by exists tok.
Qed.

(** A piece that contains no separator is not cut. *)
Lemma split_without_separator c s : contains c s = false → split c s = [s].
Proof.
  induction s as [|c' s IH]; simpl; [done|].
  intros [Hc Hs]%orb_false_iff. rewrite Hc, (IH Hs). done.
Qed.

Lemma token_without_colon_malformed b tok :
  tok ∈ split " " b → contains ":" tok = false → malformed b.
Proof.
  intros Hin Hc. exists tok. split; [done|].
  by rewrite (split_without_separator _ _ Hc).
Qed.

(** ** One turn of the loop *)

Section Iteration.

Variable args : list string.
Variable spawn : nat -> call_outcome.

(** The decision writes nothing, calls nothing, and can only fail with a
    [KeyError], which the [except] clause catches. *)
Lemma decision_pure (h d : gmap string string) :
  ∃ v, (∀ n, decision args h d n = Result [] n v) ∧
       match v with inl e => is_Exception e = true | inr _ => True end.
Proof.
  unfold decision, is_terminal_event, is_watched, getitem.
  destruct (h !! "eventname") as [en|]; unfold_M;
    [|by exists (inl (KeyError "eventname"))].
  destruct (String.eqb en "PROCESS_STATE_FATAL"); simpl;
    [|destruct (String.eqb en "PROCESS_STATE_EXITED"); simpl].
  3: by exists (inr false).
  all: case_bool_decide; simpl; [by exists (inr true)|];
    destruct (d !! "processname") as [pn|]; simpl;
    [by exists (inr (bool_decide (pn ∈ args)))
    |by exists (inl (KeyError "processname"))].
Qed.

Lemma decision_value (h d : gmap string string) n :
  decision args h d n = Result [] n (value (decision args h d 0)).
Proof.
  destruct (decision_pure h d) as (v & Hv & _). by rewrite !Hv.
Qed.

Lemma iteration_malformed debug f n e :
  parse_body (body f) = inl e →
  iteration args debug spawn f n = Result [Wait f] n (inl e).
Proof. intros H. unfold iteration. unfold_M. by rewrite H. Qed.

Lemma iteration_debug f n d :
  parse_body (body f) = inr d →
  iteration args true spawn f n = Result [Wait f] n (inr tt).
Proof. intros H. unfold iteration. unfold_M. by rewrite H. Qed.

(** In normal mode a frame that parses ends in one of four ways, according
    to the decision and to the outcome of the subprocess call. *)
Lemma iteration_normal f n d :
  parse_body (body f) = inr d →
  iteration args false spawn f n =
    match value (decision args (headers f) d 0) with
    | inl e =>
        Result [Wait f; Critical fmt_unexpected e; Reply FAIL] n
          (inl (SystemExit 1))
    | inr false => Result [Wait f; Reply OK] n (inr tt)
    | inr true =>
        match spawn n with
        | Returned rc =>
            Result [Wait f; Info msg_waiting; Sleep 10;
                    Info msg_shutting_down;
                    Call supervisorctl_shutdown (Returned rc); Reply OK]
              (S n) (inr tt)
        | SpawnFailed =>
            Result [Wait f; Info msg_waiting; Sleep 10;
                    Info msg_shutting_down;
                    Call supervisorctl_shutdown SpawnFailed;
                    Critical fmt_unexpected OSError; Reply FAIL]
              (S n) (inl (SystemExit 1))
        end
    end.
Proof.
  intros H. unfold iteration, try_except_else, guarded, handler.
  unfold_M. rewrite H. simpl.
  destruct (decision_pure (headers f) d) as (v & Hv & Hexc).
  rewrite !Hv. simpl. destruct v as [e|[|]]; simpl.
  - by rewrite Hexc.
  - unfold shutdown, subprocess_call. unfold_M. by destruct (spawn n).
  - done.
Qed.

Lemma iteration_turn debug f n :
  turn f n (iteration args debug spawn f n).
Proof.
  destruct (parse_body (body f)) as [e|d] eqn:Hparse.
  - rewrite (iteration_malformed _ _ _ _ Hparse).
    rewrite (parse_body_error _ _ Hparse). constructor.
  - destruct debug.
    + rewrite (iteration_debug _ _ _ Hparse). constructor.
    + rewrite (iteration_normal _ _ _ Hparse).
      destruct (decision_pure (headers f) d) as (v & Hv & Hexc).
      rewrite Hv. simpl. destruct v as [e|[|]].
      * by constructor.
      * destruct (spawn n); constructor.
      * constructor.
Qed.

Lemma decision_other (h d : gmap string string) en n :
  h !! "eventname" = Some en →
  en ≠ "PROCESS_STATE_FATAL" →
  en ≠ "PROCESS_STATE_EXITED" →
  decision args h d n = Result [] n (inr false).
Proof.
  intros Hen Hfatal Hexited.
  unfold decision, is_terminal_event, getitem. rewrite Hen. unfold_M.
  destruct (String.eqb_spec en "PROCESS_STATE_FATAL"); [done|]. simpl.
  by destruct (String.eqb_spec en "PROCESS_STATE_EXITED").
Qed.

Lemma loop_cons debug f rest n :
  loop args debug spawn (f :: rest) n =
    match value (iteration args debug spawn f n) with
    | inl e =>
        Result (events (iteration args debug spawn f n))
          (calls (iteration args debug spawn f n)) (inl e)
    | inr _ =>
        after (events (iteration args debug spawn f n))
          (loop args debug spawn rest
             (calls (iteration args debug spawn f n)))
    end.
Proof.
  change (loop args debug spawn (f :: rest) n) with
    ((iteration args debug spawn f ≫= λ _, loop args debug spawn rest) n).
  apply bind_run.
Qed.

End Iteration.

(** ** Three runs *)

(** The watched process exits: one shutdown, one OK, then the stream ends. *)
Example run_game_exited :
  main [] ∅ (always (Returned 0)) [game_exited] =
    Result [Info msg_listening; Wait game_exited; Info msg_waiting; Sleep 10;
            Info msg_shutting_down;
            Call supervisorctl_shutdown (Returned 0); Reply OK]
      1 (inl (KeyError "len")).
Proof. reflexivity. Qed.

(** An event of another kind is acknowledged and nothing else happens. *)
Example run_game_running :
  main [] ∅ (always (Returned 0)) [game_running] =
    Result [Info msg_listening; Wait game_running; Reply OK]
      0 (inl (KeyError "len")).
Proof. reflexivity. Qed.

(** A process outside the watch list exits: acknowledged, no shutdown. *)
Example run_sidecar_exited :
  main ["game"] ∅ (always (Returned 0)) [sidecar_exited] =
    Result [Info msg_listening; Wait sidecar_exited; Reply OK]
      0 (inl (KeyError "len")).
Proof. reflexivity. Qed.

(** ** The watch decision *)

(** C2.  The watch decision of lines 26 and 27 is a pure function of the
    event name, the process name and the watch list: it writes nothing,
    calls nothing and does not depend on how many calls were made.  It
    returns true exactly when the event name is PROCESS_STATE_FATAL or
    PROCESS_STATE_EXITED and the watch list is empty or contains the
    process name, and false for every other combination; the shutdown
    sequence runs exactly when it returns true. *)
Theorem decision_iff (args : list string) (spawn : nat → call_outcome)
    (h d : gmap string string) (en pn : string) (n : nat) :
  h !! "eventname" = Some en →
  d !! "processname" = Some pn →
  ∃ q : bool,
    decision args h d n = Result [] n (inr q) ∧
    (q = true ↔
       (en = "PROCESS_STATE_FATAL" ∨ en = "PROCESS_STATE_EXITED") ∧
       (args = [] ∨ pn ∈ args)) ∧
    guarded args spawn h d n =
      if q then shutdown spawn n else Result [] n (inr tt).
Proof.
  intros Hen Hpn.
  assert (∃ q : bool,
    decision args h d n = Result [] n (inr q) ∧
    (q = true ↔
       (en = "PROCESS_STATE_FATAL" ∨ en = "PROCESS_STATE_EXITED") ∧
       (args = [] ∨ pn ∈ args))) as (q & Hq & Hiff).
  { unfold decision, is_terminal_event, is_watched, getitem.
    rewrite Hen. unfold_M.
    destruct (String.eqb_spec en "PROCESS_STATE_FATAL") as [->|Hfatal]; simpl.
    - case_bool_decide as Hargs; simpl.
      + exists true. split; [done|]. split; [|done]. intros _. by split; left.
      + rewrite Hpn. simpl. exists (bool_decide (pn ∈ args)). split; [done|].
        rewrite bool_decide_eq_true. split.
        * intros Hin. split; [by left|by right].
        * by intros [_ [?|?]].
    - destruct (String.eqb_spec en "PROCESS_STATE_EXITED") as [->|Hexited];
        simpl.
      + case_bool_decide as Hargs; simpl.
        * exists true. split; [done|]. split; [|done]. intros _.
          split; [by right|by left].
        * rewrite Hpn. simpl. exists (bool_decide (pn ∈ args)).
          split; [done|]. rewrite bool_decide_eq_true. split.
          -- intros Hin. split; by right.
          -- by intros [_ [?|?]].
      + exists false. split; [done|]. split; [done|].
        by intros [[?|?] _]. }
  exists q. split; [done|]. split; [done|].
  unfold guarded. rewrite bind_run, Hq. simpl.
  destruct q; [|done]. by rewrite after_nil.
Qed.

Lemma decision_iff_witness :
  ∃ q : bool,
    decision ["game"] {["eventname" := "PROCESS_STATE_EXITED"]}
      {["processname" := "game"]} 0 = Result [] 0%nat (inr q) ∧
    (q = true ↔
       ("PROCESS_STATE_EXITED" = "PROCESS_STATE_FATAL" ∨
        "PROCESS_STATE_EXITED" = "PROCESS_STATE_EXITED") ∧
       (["game"] = [] ∨ "game" ∈ ["game"])) ∧
    guarded ["game"] (λ _, Returned 0) {["eventname" := "PROCESS_STATE_EXITED"]}
      {["processname" := "game"]} 0 =
      if q then shutdown (λ _, Returned 0) 0 else Result [] 0%nat (inr tt).
Proof.
  apply (decision_iff ["game"] (λ _, Returned 0)
           {["eventname" := "PROCESS_STATE_EXITED"]}
           {["processname" := "game"]}
           "PROCESS_STATE_EXITED" "game" 0); reflexivity.
Defined.

(** ** Runs of the whole loop *)

Lemma main_loop args environ spawn stdin :
  main args environ spawn stdin =
    after [Info msg_listening] (loop args (debug_of environ) spawn stdin 0).
Proof. reflexivity. Qed.

Lemma qualifying_iteration args spawn f n :
  qualifying args f →
  iteration args false spawn f n =
    match spawn n with
    | Returned rc =>
        Result [Wait f; Info msg_waiting; Sleep 10; Info msg_shutting_down;
                Call supervisorctl_shutdown (Returned rc); Reply OK]
          (S n) (inr tt)
    | SpawnFailed =>
        Result [Wait f; Info msg_waiting; Sleep 10; Info msg_shutting_down;
                Call supervisorctl_shutdown SpawnFailed;
                Critical fmt_unexpected OSError; Reply FAIL]
          (S n) (inl (SystemExit 1))
    end.
Proof.
  intros (d & Hd & Hq). by rewrite (iteration_normal _ _ _ _ _ Hd), Hq.
Qed.

Lemma loop_qualifying args spawn stdin n :
  (∀ k, spawn k ≠ SpawnFailed) →
  Forall (qualifying args) stdin →
  invocations (events (loop args false spawn stdin n)) = length stdin.
Proof.
  intros Hspawn Hall. revert n.
  induction Hall as [|f rest Hf _ IH]; intros n; [done|].
  rewrite loop_cons, (qualifying_iteration _ _ _ _ Hf).
  specialize (Hspawn n). destruct (spawn n) as [rc|]; [|done]. simpl.
  by rewrite IH.
Qed.

(** C1, as the code has it.  There is no shutdown flag: in normal mode every
    qualifying event runs the shutdown command again, so a sequence of N
    qualifying events, each followed by a successful spawn, invokes the
    command exactly N times. *)
Theorem shutdown_per_qualifying_event (args : list string)
    (environ : gmap string string) (spawn : nat → call_outcome)
    (stdin : list frame) :
  debug_of environ = false →
  (∀ k, spawn k ≠ SpawnFailed) →
  Forall (qualifying args) stdin →
  invocations (events (main args environ spawn stdin)) = length stdin.
Proof.
  intros Hdebug Hspawn Hall. rewrite main_loop, Hdebug. simpl.
  by apply loop_qualifying.
Qed.

Lemma game_exited_qualifying : qualifying [] game_exited.
Proof.
  eexists. split; [reflexivity|]. vm_compute. reflexivity.
Qed.

Lemma shutdown_per_qualifying_event_witness :
  invocations (events (main [] ∅ (always (Returned 0))
                         [game_exited; game_exited; game_exited])) = 3%nat.
Proof.
  apply (shutdown_per_qualifying_event [] ∅ (always (Returned 0))
           [game_exited; game_exited; game_exited]).
  - reflexivity.
  - intros k. discriminate.
  - repeat constructor;
      (eexists; split; [reflexivity|vm_compute; reflexivity]).
Defined.

(** C1 fails as stated: two qualifying events in the same run invoke the
    shutdown command twice, not once. *)
Lemma shutdown_invoked_twice :
  Forall (qualifying []) [game_exited; game_exited] ∧
  invocations (events (main [] ∅ (always (Returned 0))
                         [game_exited; game_exited])) = 2%nat ∧
  invocations (events (main [] ∅ (always (Returned 0))
                         [game_exited; game_exited])) ≠ 1%nat.
Proof.
  split; [repeat constructor; exact game_exited_qualifying|].
  split; [vm_compute; reflexivity|vm_compute; discriminate].
Qed.

(** ** Faults *)

(** C4, evaluated.  A terminal event whose body is [badtoken]: the parser of
    line 21 raises [ValueError] outside the [try] statement, so the run ends
    there with the frame read and nothing written; the status is 1 and the
    shutdown command is not invoked.  The sibling fault inside the [try]
    statement, a body without [processname], does get its FAIL reply. *)
Theorem malformed_body_escapes (args : list string)
    (spawn : nat → call_outcome) :
  main args ∅ spawn [bad_token] =
    Result [Info msg_listening; Wait bad_token] 0 (inl ValueError) ∧
  replies (events (main args ∅ spawn [bad_token])) = [] ∧
  exit_status (main args ∅ spawn [bad_token]) = 1%Z ∧
  main ["game"] ∅ spawn [no_processname] =
    Result [Info msg_listening; Wait no_processname;
            Critical fmt_unexpected (KeyError "processname"); Reply FAIL]
      0 (inl (SystemExit 1)).
Proof.
  assert (main args ∅ spawn [bad_token] =
    Result [Info msg_listening; Wait bad_token] 0 (inl ValueError)) as Hrun.
  { rewrite main_loop, loop_cons.
    by rewrite (iteration_malformed _ _ _ _ _ ValueError). }
  rewrite Hrun. split; [done|]. split; [done|]. split; [done|].
  rewrite main_loop, loop_cons.
  by erewrite iteration_normal by reflexivity.
Qed.

(** C5 fails as stated: when the shutdown command cannot be spawned, the
    frame is answered with FAIL and the process exits with status 1. *)
Lemma spawn_failure_escalated :
  qualifying [] game_exited ∧
  replies (events (main [] ∅ (always SpawnFailed) [game_exited])) = [FAIL] ∧
  exit_status (main [] ∅ (always SpawnFailed) [game_exited]) = 1%Z ∧
  exit_status (main [] ∅ (always SpawnFailed) [game_exited]) ≠ 0%Z.
Proof.
  split; [exact game_exited_qualifying|].
  split; [vm_compute; reflexivity|]. split; [vm_compute; reflexivity|].
  vm_compute. discriminate.
Qed.

(** C5, as the code has it.  [subprocess.call] is inside the [try]
    statement.  When the command cannot be spawned, the [OSError] is logged
    at level critical, FAIL is written for the frame and the process exits
    with status 1, whatever frames are still to come.  When the command is
    spawned, its return code is ignored: OK is written and the loop goes on
    with the next frame. *)
Theorem spawn_failure_is_a_fault (args : list string)
    (spawn : nat → call_outcome) (f : frame) (rest : list frame) (n : nat) :
  qualifying args f →
  loop args false spawn (f :: rest) n =
    match spawn n with
    | Returned rc =>
        after [Wait f; Info msg_waiting; Sleep 10; Info msg_shutting_down;
               Call supervisorctl_shutdown (Returned rc); Reply OK]
          (loop args false spawn rest (S n))
    | SpawnFailed =>
        Result [Wait f; Info msg_waiting; Sleep 10; Info msg_shutting_down;
                Call supervisorctl_shutdown SpawnFailed;
                Critical fmt_unexpected OSError; Reply FAIL]
          (S n) (inl (SystemExit 1))
    end.
Proof.
  intros Hq. rewrite loop_cons, (qualifying_iteration _ _ _ _ Hq).
  by destruct (spawn n).
Qed.

Lemma spawn_failure_is_a_fault_witness :
  loop [] false (always SpawnFailed) [game_exited; game_exited] 0 =
    Result [Wait game_exited; Info msg_waiting; Sleep 10;
            Info msg_shutting_down;
            Call supervisorctl_shutdown SpawnFailed;
            Critical fmt_unexpected OSError; Reply FAIL]
      1 (inl (SystemExit 1)).
Proof.
  apply (spawn_failure_is_a_fault [] (always SpawnFailed) game_exited
           [game_exited] 0).
  eexists. split; [reflexivity|vm_compute; reflexivity].
Defined.

(** ** Which bodies are parsed *)

(** C6 fails as stated: an event that is not about a process, with the empty
    body such events have, is put through the parser of line 21, and the run
    ends with the parser's [ValueError]. *)
Lemma other_event_body_parsed :
  headers supervisor_running !! "eventname" =
    Some "SUPERVISOR_STATE_CHANGE_RUNNING" ∧
  parse_body (body supervisor_running) = inl ValueError ∧
  main [] ∅ (always (Returned 0)) [supervisor_running] =
    Result [Info msg_listening; Wait supervisor_running] 0 (inl ValueError).
Proof. split; [reflexivity|]. split; reflexivity. Qed.

(** C6, as the code has it.  The body of a frame goes through the parser
    before the event name is looked at, whatever the event is.  For an event
    other than PROCESS_STATE_FATAL and PROCESS_STATE_EXITED the parser alone
    decides how the turn goes: a body it rejects ends the turn with its
    exception, and a body it accepts is answered with OK whatever its fields
    are, since they are never consulted. *)
Theorem body_parsed_for_every_event (args : list string)
    (spawn : nat → call_outcome) (f : frame) (en : string) (n : nat) :
  headers f !! "eventname" = Some en →
  en ≠ "PROCESS_STATE_FATAL" →
  en ≠ "PROCESS_STATE_EXITED" →
  iteration args false spawn f n =
    match parse_body (body f) with
    | inl e => Result [Wait f] n (inl e)
    | inr _ => Result [Wait f; Reply OK] n (inr tt)
    end.
Proof.
  intros Hen Hfatal Hexited.
  destruct (parse_body (body f)) as [e|d] eqn:Hparse.
  - by apply iteration_malformed.
  - rewrite (iteration_normal _ _ _ _ _ Hparse).
    by rewrite (decision_other args _ d en 0 Hen Hfatal Hexited).
Qed.

Lemma body_parsed_for_every_event_witness :
  iteration ["game"] false (always (Returned 0)) supervisor_running 0 =
    match parse_body (body supervisor_running) with
    | inl e => Result [Wait supervisor_running] 0%nat (inl e)
    | inr _ => Result [Wait supervisor_running; Reply OK] 0%nat (inr tt)
    end.
Proof.
  apply (body_parsed_for_every_event ["game"] (always (Returned 0))
           supervisor_running "SUPERVISOR_STATE_CHANGE_RUNNING" 0).
  - reflexivity.
  - discriminate.
  - discriminate.
Defined.

(** ** Debug mode and malformed bodies *)

Lemma debug_of_true environ :
  debug_of environ = true ↔ is_Some (environ !! "DEBUG").
Proof. unfold debug_of. apply bool_decide_eq_true. Qed.

Lemma replies_waits (fs : list frame) : replies (map Wait fs) = [].
Proof. induction fs as [|f fs IH]; [done|]. apply IH. Qed.

Lemma loop_debug_skips args spawn stdin rest n :
  Forall well_formed stdin →
  loop args true spawn (stdin ++ rest) n =
    after (map Wait stdin) (loop args true spawn rest n).
Proof.
  intros Hall. induction Hall as [|f fs (d & Hd) _ IH]; simpl app.
  - by rewrite after_nil.
  - rewrite loop_cons, (iteration_debug _ _ _ _ _ Hd). simpl.
    rewrite IH. by rewrite after_after.
Qed.

(** C10.  In debug mode the body of every frame is still parsed before the
    frame is skipped.  After any number of frames with well-formed bodies,
    all skipped without a reply, a frame with a malformed body ends the
    process with the parser's uncaught [ValueError]: the trace holds the
    frames read and nothing else, so no OK and no FAIL is ever written. *)
Theorem debug_malformed_body_uncaught (args : list string)
    (environ : gmap string string) (spawn : nat → call_outcome)
    (pre : list frame) (f : frame) (post : list frame) :
  is_Some (environ !! "DEBUG") →
  Forall well_formed pre →
  malformed (body f) →
  main args environ spawn (pre ++ f :: post) =
    Result (Info msg_listening :: map Wait (pre ++ [f])) 0
      (inl ValueError) ∧
  replies (events (main args environ spawn (pre ++ f :: post))) = [] ∧
  exit_status (main args environ spawn (pre ++ f :: post)) = 1%Z.
Proof.
  intros Hdebug%debug_of_true Hpre Hbad%parse_body_malformed.
  assert (main args environ spawn (pre ++ f :: post) =
    Result (Info msg_listening :: map Wait (pre ++ [f])) 0
      (inl ValueError)) as Hrun.
  { rewrite main_loop, Hdebug, (loop_debug_skips _ _ _ _ _ Hpre).
    rewrite loop_cons, (iteration_malformed _ _ _ _ _ _ Hbad).
    unfold after. simpl. by rewrite map_app. }
  rewrite Hrun. split; [done|]. split; [|done]. simpl.
  apply replies_waits.
Qed.

Lemma debug_malformed_body_uncaught_witness :
  main [] {["DEBUG" := "0"]} (always (Returned 0))
    ([game_exited] ++ bad_token :: [game_exited]) =
    Result (Info msg_listening :: map Wait ([game_exited] ++ [bad_token])) 0
      (inl ValueError) ∧
  replies (events (main [] {["DEBUG" := "0"]} (always (Returned 0))
                     ([game_exited] ++ bad_token :: [game_exited]))) = [] ∧
  exit_status (main [] {["DEBUG" := "0"]} (always (Returned 0))
                 ([game_exited] ++ bad_token :: [game_exited])) = 1%Z.
Proof.
  apply (debug_malformed_body_uncaught [] {["DEBUG" := "0"]}
           (always (Returned 0)) [game_exited] bad_token [game_exited]).
  - exists "0". reflexivity.
  - repeat constructor. eexists. reflexivity.
  - exists "badtoken". split; [vm_compute; left|vm_compute; lia].
Defined.

(** ** How a run ends *)

Lemma loop_ends args debug spawn stdin n :
  value (loop args debug spawn stdin n) = inl (KeyError "len") ∧
    reads (events (loop args debug spawn stdin n)) = stdin ∧
    FAIL ∉ replies (events (loop args debug spawn stdin n))
  ∨ value (loop args debug spawn stdin n) = inl ValueError
  ∨ value (loop args debug spawn stdin n) = inl (SystemExit 1).
Proof.
  revert n. induction stdin as [|f rest IH]; intros n.
  - left. split; [done|]. split; [done|]. simpl. apply not_elem_of_nil.
  - rewrite loop_cons.
    destruct (iteration_turn args spawn debug f n); simpl; auto.
    all: match goal with |- context [loop _ _ _ _ ?m] =>
           destruct (IH m) as [(Hv & Hr & Hf)|[Hv|Hv]]; auto end.
    all: left; split; [done|]; split; [by rewrite Hr|].
    + done.
    + by intros [?|?]%elem_of_cons.
    + by intros [?|?]%elem_of_cons.
Qed.

(** C7 fails as stated: on a stream that is closed from the start the
    process ends with an uncaught [KeyError] and status 1, not 0. *)
Lemma closed_stream_status_one :
  main [] ∅ (always (Returned 0)) [] =
    Result [Info msg_listening] 0 (inl (KeyError "len")) ∧
  exit_status (main [] ∅ (always (Returned 0)) []) = 1%Z ∧
  exit_status (main [] ∅ (always (Returned 0)) []) ≠ 0%Z.
Proof. split; [reflexivity|]. split; [reflexivity|discriminate]. Qed.

(** C7, as the code has it.  A run of [main] ends in one of three ways only.
    When the input stream is exhausted, every frame has been read,
    [listener.wait] raises [KeyError] outside the [try] statement and nothing
    catches it: no FAIL reply is written, in that turn or before.  Otherwise
    the run ended earlier, with the parser's [ValueError] or with [exit(1)].
    In all three cases the exit status is not zero; on a stream closed from
    the start it is the first case. *)
Theorem stream_closed_uncaught (args : list string)
    (environ : gmap string string) (spawn : nat → call_outcome)
    (stdin : list frame) :
  exit_status (main args environ spawn stdin) ≠ 0%Z ∧
  main args environ spawn [] =
    Result [Info msg_listening] 0 (inl (KeyError "len")) ∧
  (value (main args environ spawn stdin) = inl (KeyError "len") ∧
     reads (events (main args environ spawn stdin)) = stdin ∧
     FAIL ∉ replies (events (main args environ spawn stdin))
   ∨ value (main args environ spawn stdin) = inl ValueError
   ∨ value (main args environ spawn stdin) = inl (SystemExit 1)).
Proof.
  rewrite !main_loop. unfold exit_status. simpl.
  destruct (loop_ends args (debug_of environ) spawn stdin 0)
    as [(Hv & Hr & Hf)|[Hv|Hv]]; rewrite Hv; auto 6.
Qed.

(** ** One reply for every frame *)






(** ** The grace delay *)

Lemma graceful_nil : graceful [].
Proof. intros [|? ?] ? ? ? H; discriminate H. Qed.

Lemma graceful_cons ev tr :
  is_call ev = false → graceful tr → graceful (ev :: tr).
Proof.
  intros Hev Htr [|p pre] argv o post H; simpl in H.
  - injection H as -> _. discriminate Hev.
  - injection H as <- H. destruct (Htr _ _ _ _ H) as (Hargv & pre' & ->).
    split; [done|]. by exists (ev :: pre').
Qed.

Lemma graceful_shutdown o tr :
  graceful tr →
  graceful (Sleep 10 :: Info msg_shutting_down ::
            Call supervisorctl_shutdown o :: tr).
Proof.
  intros Htr [|p0 [|p1 [|p2 pre]]] argv o' post H; simpl in H.
  - discriminate H.
  - discriminate H.
  - injection H as <- <- <- _ _. split; [done|]. by exists [].
  - injection H as <- <- <- H.
    destruct (Htr _ _ _ _ H) as (Hargv & pre' & ->). split; [done|].
    by exists (Sleep 10 :: Info msg_shutting_down ::
               Call supervisorctl_shutdown o :: pre').
Qed.

Lemma loop_graceful args debug spawn stdin n :
  graceful (events (loop args debug spawn stdin n)).
Proof.
  revert n. induction stdin as [|f rest IH]; intros n; [apply graceful_nil|].
  rewrite loop_cons.
  destruct (iteration_turn args spawn debug f n); simpl;
    repeat first
      [ apply IH
      | apply graceful_nil
      | apply graceful_shutdown
      | apply graceful_cons; [reflexivity|] ].
Qed.

(** C8.  Every invocation of a subprocess in a run is the shutdown command,
    and what the process did just before it is the ten-second sleep followed
    by the log record of line 30: the command is never invoked without the
    sleep having come first.  The shutdown sequence itself is the log record
    of line 28, the sleep of 10 seconds, the log record of line 30 and then
    the command, in that order. *)
Theorem sleep_before_shutdown (args : list string)
    (environ : gmap string string) (spawn : nat → call_outcome)
    (stdin : list frame) (pre : list event) (argv : list string)
    (o : call_outcome) (post : list event) :
  events (main args environ spawn stdin) = pre ++ Call argv o :: post →
  (argv = supervisorctl_shutdown ∧
   ∃ pre', pre = pre' ++ [Sleep 10; Info msg_shutting_down]) ∧
  ∀ n, events (shutdown spawn n) =
         [Info msg_waiting; Sleep 10; Info msg_shutting_down;
          Call supervisorctl_shutdown (spawn n)].
Proof.
  intros H. split.
  - revert H. rewrite main_loop. simpl.
    apply (graceful_cons (Info msg_listening)); [done|].
    apply loop_graceful.
  - intros n. unfold shutdown, subprocess_call. unfold_M.
    by destruct (spawn n).
Qed.

Lemma sleep_before_shutdown_witness :
  (supervisorctl_shutdown = supervisorctl_shutdown ∧
   ∃ pre', [Info msg_listening; Wait game_exited; Info msg_waiting;
            Sleep 10; Info msg_shutting_down] =
           pre' ++ [Sleep 10; Info msg_shutting_down]) ∧
  ∀ n, events (shutdown (always (Returned 0)) n) =
         [Info msg_waiting; Sleep 10; Info msg_shutting_down;
          Call supervisorctl_shutdown (always (Returned 0) n)].
Proof.
  apply (sleep_before_shutdown [] ∅ (always (Returned 0)) [game_exited]
           [Info msg_listening; Wait game_exited; Info msg_waiting;
            Sleep 10; Info msg_shutting_down]
           supervisorctl_shutdown (Returned 0) [Reply OK]).
  reflexivity.
Defined.

(** ** The debug switch *)

(** C9.  Debug mode is decided by the presence of the key DEBUG in the
    environment and by nothing else: any value enables it, the empty string
    and the string 0 included, and two environments that agree on the
    presence of the key give the same run.  The environment is read once,
    before the loop, and the loop runs with that one answer: with DEBUG set,
    every frame of a well-formed stream, not only the first, is read and
    skipped. *)
Theorem debug_by_presence (args : list string)
    (environ : gmap string string) (spawn : nat → call_outcome)
    (stdin : list frame) (v : string) :
  Forall well_formed stdin →
  (debug_of environ = true ↔ is_Some (environ !! "DEBUG")) ∧
  debug_of (<["DEBUG" := v]> environ) = true ∧
  debug_of (<["DEBUG" := ""]> environ) = true ∧
  debug_of (<["DEBUG" := "0"]> environ) = true ∧
  main args environ spawn stdin =
    after [Info msg_listening]
      (loop args (debug_of environ) spawn stdin 0) ∧
  (∀ environ' : gmap string string,
     (is_Some (environ !! "DEBUG") ↔ is_Some (environ' !! "DEBUG")) →
     main args environ spawn stdin = main args environ' spawn stdin) ∧
  main args (<["DEBUG" := v]> environ) spawn stdin =
    Result (Info msg_listening :: map Wait stdin) 0 (inl (KeyError "len")).
Proof.
  intros Hall.
  assert (∀ w, debug_of (<["DEBUG" := w]> environ) = true) as Hset.
  { intros w. apply debug_of_true. rewrite lookup_insert_eq. by exists w. }
  split; [apply debug_of_true|]. do 3 (split; [apply Hset|]).
  split; [reflexivity|]. split.
  - intros environ' Hsame. rewrite !main_loop.
    replace (debug_of environ') with (debug_of environ); [done|].
    unfold debug_of. by apply bool_decide_ext.
  - rewrite main_loop, Hset.
    rewrite <- (app_nil_r stdin) at 1.
    rewrite (loop_debug_skips _ _ _ _ _ Hall). unfold after. simpl.
    by rewrite app_nil_r.
Qed.

Lemma debug_by_presence_witness :
  (debug_of ∅ = true ↔ is_Some ((∅ : gmap string string) !! "DEBUG")) ∧
  debug_of (<["DEBUG" := "0"]> ∅) = true ∧
  debug_of (<["DEBUG" := ""]> ∅) = true ∧
  debug_of (<["DEBUG" := "0"]> ∅) = true ∧
  main [] ∅ (always (Returned 0)) [game_exited; game_exited] =
    after [Info msg_listening]
      (loop [] (debug_of ∅) (always (Returned 0))
         [game_exited; game_exited] 0) ∧
  (∀ environ' : gmap string string,
     (is_Some ((∅ : gmap string string) !! "DEBUG") ↔
      is_Some (environ' !! "DEBUG")) →
     main [] ∅ (always (Returned 0)) [game_exited; game_exited] =
     main [] environ' (always (Returned 0)) [game_exited; game_exited]) ∧
  main [] (<["DEBUG" := "0"]> ∅) (always (Returned 0))
    [game_exited; game_exited] =
    Result (Info msg_listening :: map Wait [game_exited; game_exited]) 0
      (inl (KeyError "len")).
Proof.
  apply (debug_by_presence [] ∅ (always (Returned 0))
           [game_exited; game_exited] "0").
  repeat constructor; eexists; reflexivity.
Defined.

(** * Further properties of the code *)

(** ** [split] and [join] *)

Lemma split_nonempty c s : split c s ≠ [].
Proof.
  destruct s as [|a s]; simpl; [done|].
  destruct (Ascii.eqb a c); [done|]. by destruct (split c s).
Qed.

Lemma split_count c s : length (split c s) = S (count c s).
Proof.
  induction s as [|a s IH]; simpl; [done|].
  destruct (Ascii.eqb a c); simpl; [by rewrite IH|].
  pose proof (split_nonempty c s). by destruct (split c s).
Qed.

Lemma split_pieces c s : Forall (λ p, contains c p = false) (split c s).
Proof.
  induction s as [|a s IH]; simpl; [by repeat constructor|].
  destruct (Ascii.eqb a c) eqn:Hac; [by constructor|].
  pose proof (split_nonempty c s).
  destruct (split c s) as [|p ps]; [done|].
  apply Forall_cons in IH as [Hp Hps]. constructor; [|done].
  simpl. by rewrite Hac.
Qed.

Lemma join_split c s : join c (split c s) = s.
Proof.
  induction s as [|a s IH]; simpl; [done|].
  pose proof (split_nonempty c s) as Hne.
  destruct (Ascii.eqb_spec a c) as [->|Hac].
  - destruct (split c s) as [|p ps]; [done|].
    change (join c ("" :: p :: ps)) with (String c (join c (p :: ps))).
    by rewrite IH.
  - destruct (split c s) as [|p [|q ps]]; [done|..].
    + simpl in *. by rewrite IH.
    + change (join c (String a p :: q :: ps))
        with (String a (join c (p :: q :: ps))).
      by rewrite IH.
Qed.

(** X1.  [split] loses nothing and cuts everywhere: joining the pieces with
    the separator gives the string back, no piece holds the separator, and
    there is one more piece than there are separators in the string, so
    never none. *)
Theorem split_join_roundtrip (c : ascii) (s : string) :
  join c (split c s) = s ∧
  Forall (λ p, contains c p = false) (split c s) ∧
  length (split c s) = S (count c s).
Proof.
  split; [apply join_split|]. split; [apply split_pieces|apply split_count].
Qed.

Lemma split_app c s1 s2 :
  split c (String.append s1 (String c s2)) = split c s1 ++ split c s2.
Proof.
  induction s1 as [|a s1 IH]; simpl.
  - by rewrite Ascii.eqb_refl.
  - rewrite IH. destruct (Ascii.eqb a c); [done|].
    pose proof (split_nonempty c s1). by destruct (split c s1).
Qed.

Lemma split_join c pieces :
  pieces ≠ [] →
  Forall (λ p, contains c p = false) pieces →
  split c (join c pieces) = pieces.
Proof.
  intros Hne Hall. induction Hall as [|p ps Hp Hps IH]; [done|].
  destruct ps as [|q ps].
  - simpl. by apply split_without_separator.
  - change (join c (p :: q :: ps))
      with (String.append p (String c (join c (q :: ps)))).
    rewrite split_app, (split_without_separator _ _ Hp), IH; done.
Qed.

(** ** Which bodies the parser accepts *)

Lemma dict_accepts d items :
  (∃ d', dict d items = inr d') ↔ Forall (λ item, length item = 2) items.
Proof.
  split.
  - intros [d' Hd']. apply Forall_forall. intros item Hin.
    destruct (decide (length item = 2)) as [|Hlen]; [done|].
    assert (dict d items = inl ValueError) as Hbad
      by (apply dict_malformed; by exists item).
    congruence.
  - intros Hall. destruct (dict d items) as [e|d'] eqn:Hd; [|by exists d'].
    rewrite (dict_error _ _ _ Hd) in Hd.
    apply dict_malformed in Hd as (item & Hin & Hlen).
    rewrite Forall_forall in Hall. by specialize (Hall item Hin).
Qed.

Lemma parse_body_accepts b :
  (∃ d, parse_body b = inr d) ↔
  Forall (λ tok, count ":" tok = 1) (split " " b).
Proof.
  unfold parse_body. rewrite dict_accepts, Forall_fmap.
  apply Forall_iff. intros tok. simpl. rewrite split_count. lia.
Qed.

(** X2.  The parser of line 21 accepts a body exactly when each of its
    space-separated tokens holds exactly one colon; any other body raises
    [ValueError], and nothing else can be raised.  A token with two colons
    is rejected like a token with none. *)
Theorem parse_body_one_colon_per_token (b : string) :
  ((∃ d, parse_body b = inr d) ↔
     Forall (λ tok, count ":" tok = 1) (split " " b)) ∧
  (parse_body b = inl ValueError ↔
     Exists (λ tok, count ":" tok ≠ 1) (split " " b)) ∧
  (∀ e, parse_body b = inl e → e = ValueError).
Proof.
  split; [apply parse_body_accepts|]. split; [|apply parse_body_error].
  rewrite parse_body_malformed. unfold malformed. rewrite Exists_exists.
  split; intros (tok & Hin & Htok); exists tok; split; try done;
    rewrite split_count in *; lia.
Qed.

Lemma empty_token_rejected b :
  EmptyString ∈ split " " b → parse_body b = inl ValueError.
Proof.
  intros Hin. apply parse_body_malformed. exists EmptyString.
  split; [done|]. simpl. lia.
Qed.

(** X3.  A body cannot hold an empty token: the empty body, a body that
    starts or ends with a space, and a body with two spaces in a row are all
    rejected with [ValueError].  More generally the text [a], a space, [b]
    is accepted exactly when [a] and [b] both are. *)
Theorem parse_body_rejects_empty_tokens (a b : string) :
  parse_body EmptyString = inl ValueError ∧
  parse_body (String " " b) = inl ValueError ∧
  parse_body (String.append a (String " " EmptyString)) = inl ValueError ∧
  parse_body (String.append a (String " " (String " " b))) =
    inl ValueError ∧
  ((∃ d, parse_body (String.append a (String " " b)) = inr d) ↔
     (∃ da, parse_body a = inr da) ∧ (∃ db, parse_body b = inr db)).
Proof.
  split; [done|]. split; [|split; [|split]].
  - apply empty_token_rejected. simpl. left.
  - apply empty_token_rejected. rewrite split_app. simpl.
    apply elem_of_app. right. left.
  - apply empty_token_rejected. rewrite split_app. simpl.
    apply elem_of_app. right. left.
  - rewrite !parse_body_accepts, split_app. apply Forall_app.
Qed.

(** ** What the parsed dictionary holds *)

Lemma dict_app d xs ys :
  dict d (xs ++ ys) =
    match dict d xs with
    | inl e => inl e
    | inr d1 => dict d1 ys
    end.
Proof.
  revert d. induction xs as [|item xs IH]; intros d; simpl; [done|].
  destruct item as [|k [|v [|]]]; first [done|apply IH].
Qed.

Lemma dict_lookup_untouched d items d' k :
  dict d items = inr d' →
  (∀ v, [k; v] ∉ items) →
  d' !! k = d !! k.
Proof.
  revert d. induction items as [|item items IH]; intros d Hd Hk; simpl in Hd.
  - by injection Hd as ->.
  - destruct item as [|k' [|v' [|]]]; try done.
    rewrite (IH _ Hd).
    + apply lookup_insert_ne. intros ->. apply (Hk v'). left.
    + intros v Hin. apply (Hk v). by right.
Qed.

Lemma dict_lookup_source d items d' k v :
  dict d items = inr d' →
  d' !! k = Some v →
  d !! k = Some v ∨ [k; v] ∈ items.
Proof.
  revert d. induction items as [|item items IH]; intros d Hd Hk; simpl in Hd.
  - injection Hd as ->. by left.
  - destruct item as [|k' [|v' [|]]]; try done.
    destruct (IH _ Hd Hk) as [Hins|Hin]; [|right; by right].
    destruct (decide (k' = k)) as [->|Hne].
    + rewrite lookup_insert_eq in Hins. injection Hins as ->. right. left.
    + rewrite lookup_insert_ne in Hins by done. by left.
Qed.

(** X4.  Reading a field of a parsed body.  Every entry of the dictionary
    comes from a token [key:value] of the body; a key that no token carries
    is absent; and when several tokens carry the same key, the last one
    wins. *)
Theorem parse_body_lookup (b : string) (d : gmap string string) :
  parse_body b = inr d →
  (∀ k v, d !! k = Some v →
     ∃ tok, tok ∈ split " " b ∧ split ":" tok = [k; v]) ∧
  (∀ k, (∀ tok v, tok ∈ split " " b → split ":" tok ≠ [k; v]) →
     d !! k = None) ∧
  (∀ toks1 tok toks2 k v,
     split " " b = toks1 ++ tok :: toks2 →
     split ":" tok = [k; v] →
     (∀ tok' v', tok' ∈ toks2 → split ":" tok' ≠ [k; v']) →
     d !! k = Some v).
Proof.
  unfold parse_body. intros Hd. split; [|split].
  - intros k v Hk.
    destruct (dict_lookup_source _ _ _ _ _ Hd Hk) as [Hempty|Hin].
    + by rewrite lookup_empty in Hempty.
    + apply list_elem_of_fmap in Hin as (tok & Heq & Hin). by exists tok.
  - intros k Hk. rewrite (dict_lookup_untouched _ _ _ k Hd).
    + apply lookup_empty.
    + intros v (tok & Heq & Hin)%list_elem_of_fmap. by apply (Hk tok v).
  - intros toks1 tok toks2 k v Hsplit Htok Hlater.
    rewrite Hsplit, map_app in Hd. simpl in Hd. rewrite Htok in Hd.
    rewrite dict_app in Hd.
    destruct (dict ∅ (map (split ":") toks1)) as [e|d1]; [done|].
    simpl in Hd. rewrite (dict_lookup_untouched _ _ _ k Hd).
    + apply lookup_insert_eq.
    + intros v' (tok' & Heq & Hin)%list_elem_of_fmap.
      by apply (Hlater tok' v').
Qed.

Lemma parse_body_lookup_witness :
  (∀ k v, ({["a" := "2"; "b" := "3"]} : gmap string string) !! k = Some v →
     ∃ tok, tok ∈ split " " "a:1 b:3 a:2" ∧ split ":" tok = [k; v]) ∧
  (∀ k, (∀ tok v, tok ∈ split " " "a:1 b:3 a:2" → split ":" tok ≠ [k; v]) →
     ({["a" := "2"; "b" := "3"]} : gmap string string) !! k = None) ∧
  (∀ toks1 tok toks2 k v,
     split " " "a:1 b:3 a:2" = toks1 ++ tok :: toks2 →
     split ":" tok = [k; v] →
     (∀ tok' v', tok' ∈ toks2 → split ":" tok' ≠ [k; v']) →
     ({["a" := "2"; "b" := "3"]} : gmap string string) !! k = Some v).
Proof.
  apply (parse_body_lookup "a:1 b:3 a:2" {["a" := "2"; "b" := "3"]}).
  vm_compute. reflexivity.
Defined.

(** ** Reading back what supervisord writes *)

Lemma split_render_field kv :
  plain_field kv → split ":" (render_field kv) = [kv.1; kv.2].
Proof.
  intros (_ & Hk & _ & Hv). unfold render_field.
  by rewrite split_app, !split_without_separator.
Qed.

Lemma contains_app c s1 s2 :
  contains c (String.append s1 s2) = contains c s1 || contains c s2.
Proof.
  induction s1 as [|a s1 IH]; simpl; [done|]. by rewrite IH, orb_assoc.
Qed.

Lemma dict_fields d (fields : list (string * string)) :
  dict d (map (λ kv, [kv.1; kv.2]) fields) =
    inr (foldl (λ m kv, <[kv.1 := kv.2]> m) d fields).
Proof.
  revert d. induction fields as [|kv fields IH]; intros d; simpl; [done|].
  apply IH.
Qed.

(** X5.  Round trip with the text format.  A non-empty list of fields whose
    keys and values hold no space and no colon, written as [key:value]
    tokens separated by single spaces, is read back by line 21 as the
    dictionary of those fields, a later field overwriting an earlier one
    with the same key. *)
Theorem parse_render_roundtrip (fields : list (string * string)) :
  fields ≠ [] →
  Forall plain_field fields →
  parse_body (render_body fields) =
    inr (foldl (λ m kv, <[kv.1 := kv.2]> m) ∅ fields).
Proof.
  intros Hne Hall. unfold parse_body, render_body.
  rewrite split_join.
  - rewrite <- dict_fields, <- list_fmap_compose. f_equal.
    apply Forall_fmap_ext_1. eapply Forall_impl; [exact Hall|].
    intros kv Hkv. simpl. by apply split_render_field.
  - by destruct fields.
  - apply Forall_fmap. eapply Forall_impl; [exact Hall|].
    intros kv (Hk & _ & Hv & _). simpl. unfold render_field.
    rewrite contains_app. simpl. by rewrite Hk, Hv.
Qed.

Lemma parse_render_roundtrip_witness :
  parse_body (render_body [("processname", "game"); ("expected", "0")]) =
    inr (foldl (λ m kv, <[kv.1 := kv.2]> m) ∅
           [("processname", "game"); ("expected", "0")]).
Proof.
  apply (parse_render_roundtrip [("processname", "game"); ("expected", "0")]).
  - discriminate.
  - repeat constructor.
Defined.

(** ** What the decision looks at *)

(** X6.  Of a frame, the [try] statement reads two fields only: the header
    [eventname] and the body field [processname].  Two frames that agree on
    these two are treated alike, whatever other headers and body fields they
    carry. *)
Theorem guarded_reads_two_fields (args : list string)
    (spawn : nat → call_outcome) (h h' d d' : gmap string string) (n : nat) :
  h !! "eventname" = h' !! "eventname" →
  d !! "processname" = d' !! "processname" →
  decision args h d n = decision args h' d' n ∧
  guarded args spawn h d n = guarded args spawn h' d' n.
Proof.
  intros Hh Hd.
  assert (decision args h d = decision args h' d') as Heq.
  { unfold decision, is_terminal_event, is_watched, getitem.
    by rewrite Hh, Hd. }
  split; [by rewrite Heq|]. unfold guarded. by rewrite Heq.
Qed.

Lemma guarded_reads_two_fields_witness :
  decision ["game"] {["eventname" := "PROCESS_STATE_EXITED"]}
    {["processname" := "game"]} 0 =
  decision ["game"]
    {["eventname" := "PROCESS_STATE_EXITED"; "serial" := "21"]}
    {["processname" := "game"; "expected" := "0"]} 0 ∧
  guarded ["game"] (always (Returned 0))
    {["eventname" := "PROCESS_STATE_EXITED"]}
    {["processname" := "game"]} 0 =
  guarded ["game"] (always (Returned 0))
    {["eventname" := "PROCESS_STATE_EXITED"; "serial" := "21"]}
    {["processname" := "game"; "expected" := "0"]} 0.
Proof.
  apply (guarded_reads_two_fields ["game"] (always (Returned 0))
           {["eventname" := "PROCESS_STATE_EXITED"]}
           {["eventname" := "PROCESS_STATE_EXITED"; "serial" := "21"]}
           {["processname" := "game"]}
           {["processname" := "game"; "expected" := "0"]} 0);
    vm_compute; reflexivity.
Defined.

(** X7.  The watch list counts as a set: the order of the names given on the
    command line and their repetitions make no difference to the decision,
    only which names are present. *)
Theorem watch_list_is_a_set (args args' : list string)
    (spawn : nat → call_outcome) (h d : gmap string string) (n : nat) :
  (∀ x, x ∈ args ↔ x ∈ args') →
  decision args h d n = decision args' h d n ∧
  guarded args spawn h d n = guarded args' spawn h d n.
Proof.
  intros Hsame.
  assert (bool_decide (args = []) = bool_decide (args' = [])) as Hnil.
  { apply bool_decide_ext. split; intros ->.
    - destruct args' as [|x ?]; [done|].
      exfalso. apply (not_elem_of_nil x), Hsame. left.
    - destruct args as [|x ?]; [done|].
      exfalso. apply (not_elem_of_nil x), Hsame. left. }
  assert (∀ p, bool_decide (p ∈ args) = bool_decide (p ∈ args')) as Hmem
    by (intros p; apply bool_decide_ext, Hsame).
  assert (decision args h d n = decision args' h d n) as Heq.
  { unfold decision, is_terminal_event, is_watched, getitem. unfold_M.
    destruct (h !! "eventname") as [en|]; simpl; [|done].
    rewrite Hnil.
    destruct (String.eqb en "PROCESS_STATE_FATAL"); simpl;
      [|destruct (String.eqb en "PROCESS_STATE_EXITED"); simpl; [|done]].
    all: destruct (bool_decide (args' = [])); simpl; [done|].
    all: destruct (d !! "processname") as [pn|]; simpl; [|done].
    all: by rewrite Hmem. }
  split; [done|]. unfold guarded. by rewrite !bind_run, Heq.
Qed.

Lemma watch_list_is_a_set_witness :
  decision ["game"; "sidecar"] {["eventname" := "PROCESS_STATE_FATAL"]}
    {["processname" := "sidecar"]} 0 =
  decision ["sidecar"; "game"; "sidecar"]
    {["eventname" := "PROCESS_STATE_FATAL"]}
    {["processname" := "sidecar"]} 0 ∧
  guarded ["game"; "sidecar"] (always (Returned 0))
    {["eventname" := "PROCESS_STATE_FATAL"]}
    {["processname" := "sidecar"]} 0 =
  guarded ["sidecar"; "game"; "sidecar"] (always (Returned 0))
    {["eventname" := "PROCESS_STATE_FATAL"]}
    {["processname" := "sidecar"]} 0.
Proof.
  apply (watch_list_is_a_set ["game"; "sidecar"]
           ["sidecar"; "game"; "sidecar"] (always (Returned 0))
           {["eventname" := "PROCESS_STATE_FATAL"]}
           {["processname" := "sidecar"]} 0).
  intros x. rewrite !elem_of_cons, !elem_of_nil. tauto.
Defined.

(** ** Missing fields *)

(** X8.  A frame without the header [eventname], in normal mode: the lookup
    of line 26 raises [KeyError] inside the [try] statement, so the error is
    logged, FAIL is written, and the process exits with status 1 without
    reading the frames that follow and without invoking anything. *)
Theorem missing_eventname_fails (args : list string)
    (spawn : nat → call_outcome) (f : frame) (rest : list frame) (n : nat) :
  well_formed f →
  headers f !! "eventname" = None →
  loop args false spawn (f :: rest) n =
    Result [Wait f; Critical fmt_unexpected (KeyError "eventname");
            Reply FAIL]
      n (inl (SystemExit 1)).
Proof.
  intros [d Hd] Hen. rewrite loop_cons, (iteration_normal _ _ _ _ _ Hd).
  unfold decision, is_terminal_event, getitem. rewrite Hen. done.
Qed.

Lemma missing_eventname_fails_witness :
  loop ["game"] false (always (Returned 0))
    (Frame ∅ "processname:game" :: [game_exited]) 0 =
    Result [Wait (Frame ∅ "processname:game");
            Critical fmt_unexpected (KeyError "eventname"); Reply FAIL]
      0 (inl (SystemExit 1)).
Proof.
  apply (missing_eventname_fails ["game"] (always (Returned 0))
           (Frame ∅ "processname:game") [game_exited] 0).
  - eexists. reflexivity.
  - reflexivity.
Defined.

(** X9.  A terminal event whose body parses but has no field
    [processname], with a watch list that is not empty: the lookup of line
    27 raises [KeyError], FAIL is written and the process exits with status
    1; the shutdown command is not invoked. *)
Theorem missing_processname_fails (args : list string)
    (spawn : nat → call_outcome) (f : frame) (d : gmap string string)
    (en : string) (rest : list frame) (n : nat) :
  parse_body (body f) = inr d →
  headers f !! "eventname" = Some en →
  en = "PROCESS_STATE_FATAL" ∨ en = "PROCESS_STATE_EXITED" →
  args ≠ [] →
  d !! "processname" = None →
  loop args false spawn (f :: rest) n =
    Result [Wait f; Critical fmt_unexpected (KeyError "processname");
            Reply FAIL]
      n (inl (SystemExit 1)).
Proof.
  intros Hd Hen Hterm Hargs Hpn.
  rewrite loop_cons, (iteration_normal _ _ _ _ _ Hd).
  unfold decision, is_terminal_event, is_watched, getitem.
  rewrite Hen, Hpn. unfold_M. rewrite (bool_decide_eq_false_2 _ Hargs).
  by destruct Hterm as [-> | ->].
Qed.

Lemma missing_processname_fails_witness :
  loop ["game"] false (always (Returned 0))
    (no_processname :: [game_exited]) 0 =
    Result [Wait no_processname;
            Critical fmt_unexpected (KeyError "processname"); Reply FAIL]
      0 (inl (SystemExit 1)).
Proof.
  apply (missing_processname_fails ["game"] (always (Returned 0))
           no_processname {["groupname" := "game"]}
           "PROCESS_STATE_EXITED" [game_exited] 0).
  - vm_compute. reflexivity.
  - reflexivity.
  - right. reflexivity.
  - discriminate.
  - reflexivity.
Defined.

(** X10.  With an empty watch list the body fields are never consulted: any
    terminal event whose body parses runs the shutdown sequence, also when
    the body names no process at all. *)
Theorem empty_watch_list_matches_all (spawn : nat → call_outcome)
    (f : frame) (en : string) (n : nat) :
  well_formed f →
  headers f !! "eventname" = Some en →
  en = "PROCESS_STATE_FATAL" ∨ en = "PROCESS_STATE_EXITED" →
  qualifying [] f ∧
  events (iteration [] false spawn f n) =
    [Wait f; Info msg_waiting; Sleep 10; Info msg_shutting_down;
     Call supervisorctl_shutdown (spawn n)] ++
    match spawn n with
    | Returned _ => [Reply OK]
    | SpawnFailed => [Critical fmt_unexpected OSError; Reply FAIL]
    end.
Proof.
  intros [d Hd] Hen Hterm.
  assert (qualifying [] f) as Hq.
  { exists d. split; [done|].
    unfold decision, is_terminal_event, is_watched, getitem.
    rewrite Hen. unfold_M. by destruct Hterm as [-> | ->]. }
  split; [done|]. rewrite (qualifying_iteration _ _ _ _ Hq).
  by destruct (spawn n).
Qed.

Lemma empty_watch_list_matches_all_witness :
  qualifying [] no_processname ∧
  events (iteration [] false (always (Returned 0)) no_processname 0) =
    [Wait no_processname; Info msg_waiting; Sleep 10;
     Info msg_shutting_down;
     Call supervisorctl_shutdown (always (Returned 0) 0)] ++
    match always (Returned 0) 0 with
    | Returned _ => [Reply OK]
    | SpawnFailed => [Critical fmt_unexpected OSError; Reply FAIL]
    end.
Proof.
  apply (empty_watch_list_matches_all (always (Returned 0)) no_processname
           "PROCESS_STATE_EXITED" 0).
  - eexists. reflexivity.
  - reflexivity.
  - right. reflexivity.
Defined.

(** ** What a run never does *)

Lemma loop_debug_reads args spawn stdin n :
  ∃ k, loop args true spawn stdin n =
         Result (map Wait (take k stdin)) n
           (value (loop args true spawn stdin n)).
Proof.
  revert n. induction stdin as [|f rest IH]; intros n.
  - by exists 0%nat.
  - rewrite loop_cons. destruct (parse_body (body f)) as [e|d] eqn:Hd.
    + rewrite (iteration_malformed _ _ _ _ _ _ Hd). simpl. by exists 1%nat.
    + rewrite (iteration_debug _ _ _ _ _ Hd). simpl.
      destruct (IH n) as [k Hk]. exists (S k). rewrite Hk at 1. done.
Qed.

Lemma invocations_waits (fs : list frame) :
  invocations (map Wait fs) = 0%nat.
Proof. induction fs as [|f fs IH]; [done|]. apply IH. Qed.

(** X11.  In debug mode the process only reads.  Whatever the frames are,
    well formed or not, the trace after the start-up log record holds
    nothing but an initial part of the frames of stdin: no reply is written,
    nothing is logged, there is no sleep and no subprocess call. *)
Theorem debug_mode_only_reads (args : list string)
    (environ : gmap string string) (spawn : nat → call_outcome)
    (stdin : list frame) :
  is_Some (environ !! "DEBUG") →
  ∃ k, events (main args environ spawn stdin) =
         Info msg_listening :: map Wait (take k stdin) ∧
       replies (events (main args environ spawn stdin)) = [] ∧
       invocations (events (main args environ spawn stdin)) = 0%nat.
Proof.
  intros Hdebug%debug_of_true. rewrite main_loop, Hdebug.
  destruct (loop_debug_reads args spawn stdin 0) as [k Hk].
  exists k. rewrite Hk. simpl. split; [done|].
  split; [apply replies_waits|apply invocations_waits].
Qed.

Lemma debug_mode_only_reads_witness :
  ∃ k, events (main [] {["DEBUG" := ""]} (always (Returned 0))
                 [game_exited; bad_token; game_exited]) =
         Info msg_listening ::
         map Wait (take k [game_exited; bad_token; game_exited]) ∧
       replies (events (main [] {["DEBUG" := ""]} (always (Returned 0))
                          [game_exited; bad_token; game_exited])) = [] ∧
       invocations (events (main [] {["DEBUG" := ""]} (always (Returned 0))
                              [game_exited; bad_token; game_exited])) = 0%nat.
Proof.
  apply (debug_mode_only_reads [] {["DEBUG" := ""]} (always (Returned 0))
           [game_exited; bad_token; game_exited]).
  exists "". reflexivity.
Defined.

Lemma ignored_iteration args spawn f n :
  ignored args f →
  iteration args false spawn f n = Result [Wait f; Reply OK] n (inr tt).
Proof.
  intros (d & Hd & Hq). by rewrite (iteration_normal _ _ _ _ _ Hd), Hq.
Qed.

(** X12.  No false alarm.  In normal mode, on a stream in which no frame
    passes the two conditions of lines 26 and 27, every frame is answered
    with OK, nothing is logged, and the shutdown command is never invoked;
    the run lasts until the stream is exhausted. *)
Theorem no_qualifying_event_no_shutdown (args : list string)
    (environ : gmap string string) (spawn : nat → call_outcome)
    (stdin : list frame) :
  debug_of environ = false →
  Forall (ignored args) stdin →
  main args environ spawn stdin =
    Result (Info msg_listening :: flat_map (λ f, [Wait f; Reply OK]) stdin)
      0 (inl (KeyError "len")).
Proof.
  intros Hdebug Hall. rewrite main_loop, Hdebug.
  assert (∀ n, loop args false spawn stdin n =
    Result (flat_map (λ f, [Wait f; Reply OK]) stdin) n
      (inl (KeyError "len"))) as Hloop.
  { induction Hall as [|f rest Hf _ IH]; intros n; [done|].
    by rewrite loop_cons, (ignored_iteration _ _ _ _ Hf), IH. }
  by rewrite Hloop.
Qed.

Lemma no_qualifying_event_no_shutdown_witness :
  main ["game"] ∅ (always (Returned 0)) [game_running; sidecar_exited] =
    Result (Info msg_listening ::
            flat_map (λ f, [Wait f; Reply OK]) [game_running; sidecar_exited])
      0 (inl (KeyError "len")).
Proof.
  apply (no_qualifying_event_no_shutdown ["game"] ∅ (always (Returned 0))
           [game_running; sidecar_exited]).
  - reflexivity.
  - repeat constructor;
      (eexists; split; [reflexivity|vm_compute; reflexivity]).
Defined.

(** ** Shape of every run *)

Lemma loop_replies args debug spawn stdin n :
  ∃ k, replies (events (loop args debug spawn stdin n)) =
         replicate k OK ++
         match value (loop args debug spawn stdin n) with
         | inl (SystemExit _) => [FAIL]
         | _ => []
         end.
Proof.
  revert n. induction stdin as [|f rest IH]; intros n.
  - by exists 0%nat.
  - rewrite loop_cons.
    destruct (iteration_turn args spawn debug f n); simpl.
    + by exists 0%nat.
    + apply IH.
    + destruct (IH n) as [k Hk]. exists (S k). by rewrite Hk.
    + by exists 0%nat.
    + destruct (IH (S n)) as [k Hk]. exists (S k). by rewrite Hk.
    + by exists 0%nat.
Qed.

Lemma loop_fail_last args debug spawn stdin n code :
  value (loop args debug spawn stdin n) = inl (SystemExit code) →
  code = 1%Z ∧
  ∃ tr, events (loop args debug spawn stdin n) = tr ++ [Reply FAIL].
Proof.
  revert n. induction stdin as [|f rest IH]; intros n; [done|].
  rewrite loop_cons.
  destruct (iteration_turn args spawn debug f n) as [| | |e He|rc|]; simpl.
  - done.
  - intros Hv. destruct (IH _ Hv) as (-> & tr & ->). split; [done|].
    by exists (Wait f :: tr).
  - intros Hv. destruct (IH _ Hv) as (-> & tr & ->). split; [done|].
    by exists (Wait f :: Reply OK :: tr).
  - intros [= <-]. split; [done|].
    by exists [Wait f; Critical fmt_unexpected e].
  - intros Hv. destruct (IH _ Hv) as (-> & tr & ->). split; [done|].
    by exists (Wait f :: Info msg_waiting :: Sleep 10 ::
               Info msg_shutting_down ::
               Call supervisorctl_shutdown (Returned rc) :: Reply OK :: tr).
  - intros [= <-]. split; [done|].
    by exists [Wait f; Info msg_waiting; Sleep 10; Info msg_shutting_down;
               Call supervisorctl_shutdown SpawnFailed;
               Critical fmt_unexpected OSError].
Qed.

(** X13.  FAIL is final.  In any run, in any mode, the replies written are
    a number of OK, followed by one FAIL exactly when the process ends with
    [exit]; in that case the exit code is 1 and the FAIL reply is the last
    thing the process does.  A run never writes OK after FAIL, and never
    two FAIL. *)
Theorem fail_is_final (args : list string) (environ : gmap string string)
    (spawn : nat → call_outcome) (stdin : list frame) :
  (∃ k, replies (events (main args environ spawn stdin)) =
          replicate k OK ++
          match value (main args environ spawn stdin) with
          | inl (SystemExit _) => [FAIL]
          | _ => []
          end) ∧
  (∀ code, value (main args environ spawn stdin) = inl (SystemExit code) →
     code = 1%Z ∧
     ∃ tr, events (main args environ spawn stdin) = tr ++ [Reply FAIL]).
Proof.
  rewrite main_loop. simpl. split.
  - apply loop_replies.
  - intros code Hv. destruct (loop_fail_last _ _ _ _ _ _ Hv) as (-> & tr & ->).
    split; [done|]. by exists (Info msg_listening :: tr).
Qed.

Lemma loop_counts args debug spawn stdin n :
  (invocations (events (loop args debug spawn stdin n))
    ≤ length (replies (events (loop args debug spawn stdin n))))%nat ∧
  (length (replies (events (loop args debug spawn stdin n)))
    ≤ length (reads (events (loop args debug spawn stdin n))))%nat ∧
  reads (events (loop args debug spawn stdin n)) `prefix_of` stdin ∧
  calls (loop args debug spawn stdin n) =
    (n + invocations (events (loop args debug spawn stdin n)))%nat.
Proof.
  revert n. induction stdin as [|f rest IH]; intros n.
  - simpl. split_and!; [done|done|done|lia].
  - rewrite loop_cons.
    destruct (iteration_turn args spawn debug f n); simpl;
      try (split_and!; [lia|lia|by apply prefix_cons, prefix_nil|lia]).
    all: match goal with |- context [loop _ _ _ _ ?m] =>
           destruct (IH m) as (Hi & Hr & Hp & Hc) end.
    all: split_and!; [lia|lia|by apply prefix_cons|lia].
Qed.

(** X14.  Counting what a run does.  A run never invokes the shutdown
    command more often than it writes replies, never writes more replies
    than it has read frames, and reads the frames of stdin in order, from
    the first one, without skipping any: at most one invocation and at most
    one reply per frame. *)
Theorem run_counts (args : list string) (environ : gmap string string)
    (spawn : nat → call_outcome) (stdin : list frame) :
  (invocations (events (main args environ spawn stdin))
    ≤ length (replies (events (main args environ spawn stdin))))%nat ∧
  (length (replies (events (main args environ spawn stdin)))
    ≤ length (reads (events (main args environ spawn stdin))))%nat ∧
  reads (events (main args environ spawn stdin)) `prefix_of` stdin ∧
  calls (main args environ spawn stdin) =
    invocations (events (main args environ spawn stdin)).
Proof.
  rewrite main_loop. simpl.
  apply (loop_counts args (debug_of environ) spawn stdin 0).
Qed.

(** ** The return code of the shutdown command *)

Lemma replies_erase_rc tr : replies (map erase_rc tr) = replies tr.
Proof.
  induction tr as [|ev tr IH]; [done|].
  destruct ev as [| | | | |argv [rc|]]; simpl; by rewrite ?IH.
Qed.

Lemma loop_erase_rc args debug spawn spawn' stdin n :
  (∀ k, spawn k = SpawnFailed ↔ spawn' k = SpawnFailed) →
  map erase_rc (events (loop args debug spawn stdin n)) =
    map erase_rc (events (loop args debug spawn' stdin n)) ∧
  calls (loop args debug spawn stdin n) =
    calls (loop args debug spawn' stdin n) ∧
  value (loop args debug spawn stdin n) =
    value (loop args debug spawn' stdin n).
Proof.
  intros Hsame. revert n. induction stdin as [|f rest IH]; intros n; [done|].
  rewrite !loop_cons. destruct (parse_body (body f)) as [e|d] eqn:Hd.
  { by rewrite !(iteration_malformed _ _ _ _ _ _ Hd). }
  destruct debug.
  { rewrite !(iteration_debug _ _ _ _ _ Hd). simpl.
    destruct (IH n) as (-> & -> & ->). done. }
  rewrite !(iteration_normal _ _ _ _ _ Hd).
  destruct (value (decision args (headers f) d 0)) as [e|[|]]; simpl.
  - done.
  - specialize (Hsame n).
    destruct (spawn n) as [rc|], (spawn' n) as [rc'|]; simpl.
    + destruct (IH (S n)) as (-> & -> & ->). done.
    + destruct Hsame as [_ Hsame]. by discriminate Hsame.
    + destruct Hsame as [Hsame _]. by discriminate Hsame.
    + done.
  - destruct (IH n) as (-> & -> & ->). done.
Qed.

(** X15.  The return code of the shutdown command is ignored.  Two runs on
    the same input whose subprocess calls differ only in the codes returned
    (they fail to spawn at the same calls) do the same things in the same
    order, write the same replies and end the same way. *)
Theorem return_code_ignored (args : list string)
    (environ : gmap string string) (spawn spawn' : nat → call_outcome)
    (stdin : list frame) :
  (∀ k, spawn k = SpawnFailed ↔ spawn' k = SpawnFailed) →
  map erase_rc (events (main args environ spawn stdin)) =
    map erase_rc (events (main args environ spawn' stdin)) ∧
  replies (events (main args environ spawn stdin)) =
    replies (events (main args environ spawn' stdin)) ∧
  value (main args environ spawn stdin) =
    value (main args environ spawn' stdin).
Proof.
  intros Hsame. rewrite !main_loop. simpl.
  destruct (loop_erase_rc args (debug_of environ) spawn spawn' stdin 0 Hsame)
    as (Hev & _ & Hval).
  split; [by rewrite Hev|]. split; [|done].
  by rewrite <- (replies_erase_rc (events (loop _ _ spawn _ _))), Hev,
    replies_erase_rc.
Qed.

Lemma return_code_ignored_witness :
  map erase_rc (events (main [] ∅ (always (Returned 0))
                          [game_exited; game_running])) =
    map erase_rc (events (main [] ∅ (always (Returned 3))
                            [game_exited; game_running])) ∧
  replies (events (main [] ∅ (always (Returned 0))
                     [game_exited; game_running])) =
    replies (events (main [] ∅ (always (Returned 3))
                       [game_exited; game_running])) ∧
  value (main [] ∅ (always (Returned 0)) [game_exited; game_running]) =
    value (main [] ∅ (always (Returned 3)) [game_exited; game_running]).
Proof.
  apply (return_code_ignored [] ∅ (always (Returned 0)) (always (Returned 3))
           [game_exited; game_running]).
  intros k. split; discriminate.
Defined.

(** ** Runs compose *)

(** X16.  A run on a stream in two parts.  If the run on the first part
    alone ends because the stream is exhausted, the run on the whole stream
    does the same and then goes on with the second part, as a fresh loop
    that starts with the calls made so far.  If the run on the first part
    ends in any other way, the second part is never read. *)
Theorem loop_app (args : list string) (debug : bool)
    (spawn : nat → call_outcome) (xs ys : list frame) (n : nat) :
  loop args debug spawn (xs ++ ys) n =
    match value (loop args debug spawn xs n) with
    | inl (KeyError _) =>
        after (events (loop args debug spawn xs n))
          (loop args debug spawn ys (calls (loop args debug spawn xs n)))
    | _ => loop args debug spawn xs n
    end.
Proof.
  revert n. induction xs as [|f rest IH]; intros n.
  - simpl. by rewrite after_nil.
  - change ((f :: rest) ++ ys) with (f :: (rest ++ ys)). rewrite !loop_cons.
    destruct (iteration_turn args spawn debug f n); simpl; try done.
    all: rewrite IH.
    all: match goal with |- context [value (loop _ _ _ ?r ?m)] =>
           destruct (loop args debug spawn r m) as [evs m' [[]|[]]] end.
    all: simpl; try done; by rewrite after_after.
Qed.
